(** * Dense LU solver of [matrix.cpp]: a shallow embedding and its properties

    The development follows
    [Exercises/2020/06-optimization-debugging-profiling/01-matrix-solution-3/matrix.cpp]:
    [matrix::transpose], [matrix::factorize] (in-place LU factorization with
    row pivoting recorded in the index vector [p]) and [matrix::solve]
    (forward and backward substitution on the right-hand side).

    Conventions of the embedding.
    - Loops [for (k = a; k < b; ++k)] are left folds over [seq a (b - a)];
      the loop state is passed explicitly.
    - A [std::vector] is a list.  Reading or writing a vector outside its
      range is undefined in C++; here a read outside the range yields the
      default element and a write outside the range is dropped.  Every
      statement below that depends on an access states the bounds under
      which the access is defined.
    - Indices are [nat]: [unsigned int] and [int] index arithmetic never
      wraps for a matrix whose [rows * cols] entries fit in a vector.
    - [assert (m == n)] is modelled as compiled in: a failed assertion
      aborts, which is the outcome [None].
    - The diagnostic lines written to [std::cout] are not modelled.
    - The entries are [double]s.  The code is embedded once for an arbitrary
      scalar type carrying the operations the code uses, and instantiated
      with the binary64 primitive floats to run it. *)

From Stdlib Require Import Floats ZArith QArith Qcanon.
From stdpp Require Import base numbers option list.

Set Default Proof Using "Type".

(** ** Scalars *)

(** The arithmetic that [matrix.cpp] performs on [double]:
    [+] ([radd]), binary [-] ([rsub]), [*] ([rmul]), [/] ([rdiv]),
    unary [-] ([ropp]), the comparison [>] ([rgtb]) and the literal [0.]
    ([rzero]). *)
Class Scalar (R : Type) : Type := {
  rzero : R;
  radd : R → R → R;
  rsub : R → R → R;
  rmul : R → R → R;
  rdiv : R → R → R;
  ropp : R → R;
  rgtb : R → R → bool
}.

#[export] Instance scalar_inhabited `{Scalar R} : Inhabited R := populate rzero.

(** IEEE 754 binary64, the [double] of the source.  [a > b] is [b < a]. *)
#[export] Instance double_scalar : Scalar float := {|
  rzero := 0%float;
  radd := PrimFloat.add;
  rsub := PrimFloat.sub;
  rmul := PrimFloat.mul;
  rdiv := PrimFloat.div;
  ropp := PrimFloat.opp;
  rgtb := λ a b, PrimFloat.ltb b a
|}.

(** ** The class [matrix] *)

(** The data members used by [matrix.cpp]: the entries [data], the shape
    [rows], [cols], the flag [factorized] and the row index vector [p]. *)
Record matrix (R : Type) : Type := Matrix {
  data : list R;
  rows : nat;
  cols : nat;
  factorized : bool;
  p : list nat
}.
Arguments Matrix {R} _ _ _ _ _.
Arguments data {R} _.
Arguments rows {R} _.
Arguments cols {R} _.
Arguments factorized {R} _.
Arguments p {R} _.

Definition get_rows {R} (M : matrix R) : nat := rows M.
Definition get_cols {R} (M : matrix R) : nat := cols M.

Definition set_data {R} (M : matrix R) (d : list R) : matrix R :=
  Matrix d (rows M) (cols M) (factorized M) (p M).

Definition set_p {R} (M : matrix R) (q : list nat) : matrix R :=
  Matrix (data M) (rows M) (cols M) (factorized M) q.

Definition set_factorized {R} (M : matrix R) (f : bool) : matrix R :=
  Matrix (data M) (rows M) (cols M) f (p M).

(** Modelled from the spec: the header [matrix.hpp] is not part of the
    sources.  The container offers "element access by (row, column), row and
    column counts, and raw contiguous storage access".  The storage order is
    the one [operator*] relies on when it maps [get_data ()] as an
    [Eigen::MatrixXd] of [rows] by [cols]: column major. *)
Definition sub2ind {R} (M : matrix R) (ir jc : nat) : nat := ir + jc * rows M.

(** Modelled from the spec: read access [index (i, j)], [const_index (i, j)]
    and [operator() (i, j)] of the missing header. *)
Definition index `{Scalar R} (M : matrix R) (irow jcol : nat) : R :=
  data M !!! sub2ind M irow jcol.

Definition const_index `{Scalar R} (M : matrix R) (irow jcol : nat) : R :=
  index M irow jcol.

(** Modelled from the spec: the assignment [index (i, j) = v] (and
    [retval (i, j) = v]) through the reference the accessor returns. *)
Definition set_index {R} (M : matrix R) (irow jcol : nat) (v : R) : matrix R :=
  set_data M (<[sub2ind M irow jcol := v]> (data M)).

(** Modelled from the spec: the constructor [matrix (rows, cols)] of the
    missing header.  The storage holds [rows * cols] entries, the flag is
    "false initially", the index vector is not filled in yet. *)
Definition new_matrix `{Scalar R} (r c : nat) : matrix R :=
  Matrix (replicate (r * c) rzero) r c false [].

(** The class invariant the constructor establishes and [matrix.cpp]
    relies on: the storage holds exactly [rows * cols] entries. *)
Definition storage_ok {R} (M : matrix R) : Prop :=
  length (data M) = rows M * cols M.

(** [q] is a bijection on [{0, ..., n-1}]: [n] entries, none repeated, all
    below [n]. *)
Definition valid_permutation (q : list nat) (n : nat) : Prop :=
  length q = n ∧ NoDup q ∧ ∀ x, x ∈ q ↔ x < n.

(** Two solvers that differ in their entries only. *)
Definition same_frame {R} (M M' : matrix R) : Prop :=
  rows M' = rows M ∧ cols M' = cols M ∧ p M' = p M ∧
  factorized M' = factorized M ∧ length (data M') = length (data M).

(** What every iteration of the loop of line 93 keeps of the solver [M] it
    was entered with. *)
Definition loop_invariant {R} (M T : matrix R) : Prop :=
  rows T = rows M ∧ cols T = cols M ∧ factorized T = factorized M ∧
  length (data T) = length (data M) ∧ valid_permutation (p T) (rows M).

(** ** [matrix::transpose] (lines 9-18) *)

Definition transpose `{Scalar R} (M : matrix R) : matrix R :=
  let retval := new_matrix (get_cols M) (get_rows M) in
  fold_left (λ retval j,
      fold_left (λ retval i, set_index retval i j (const_index M j i))
                (seq 0 (get_rows retval)) retval)
    (seq 0 (get_cols retval)) retval.

(** ** [matrix::factorize] (lines 79-117) *)

(** Lines 82-84: [p.resize (rows, 0)] and [p[ii] = ii]. *)
Definition init_p {R} (M : matrix R) : matrix R :=
  fold_left (λ M ii, set_p M (<[ii := ii]> (p M)))
    (seq 0 (rows M)) (set_p M (resize (rows M) 0 (p M))).

(** Lines 95-102: the scan for the pivot of column [ii].  The loop state is
    the pair [(maxpivot, imaxpivot)]. *)
Definition pivot_scan `{Scalar R} (M : matrix R) (m ii : nat) : R * nat :=
  fold_left (λ '(maxpivot, imaxpivot) kk,
      if rgtb (index M (p M !!! kk) ii) maxpivot
      then (index M (p M !!! kk) ii, kk)
      else (maxpivot, imaxpivot))
    (seq (S ii) (m - S ii)) (index M (p M !!! ii) ii, ii).

Definition find_pivot `{Scalar R} (M : matrix R) (m ii : nat) : nat :=
  snd (pivot_scan M m ii).

(** [std::swap (p[ii], p[imaxpivot])]. *)
Definition swap_p (q : list nat) (i j : nat) : list nat :=
  let tmp := q !!! i in
  <[j := tmp]> (<[i := q !!! j]> q).

(** Lines 104-105. *)
Definition pivot_swap {R} (M : matrix R) (ii imaxpivot : nat) : matrix R :=
  if decide (imaxpivot ≠ ii) then set_p M (swap_p (p M) ii imaxpivot) else M.

(** Lines 110-113: the body of the loop over [jj], for one row. *)
Definition eliminate_row `{Scalar R} (n ii : nat) (pivot : R)
    (M : matrix R) (jj : nat) : matrix R :=
  let M1 := set_index M (p M !!! jj) ii (rdiv (index M (p M !!! jj) ii) pivot) in
  fold_left (λ M kk,
      set_index M (p M !!! jj) kk
        (radd (index M (p M !!! jj) kk)
              (rmul (ropp (index M (p M !!! ii) kk)) (index M (p M !!! jj) ii))))
    (seq (S ii) (n - S ii)) M1.

(** Lines 107-114. *)
Definition eliminate `{Scalar R} (m n ii : nat) (M : matrix R) : matrix R :=
  let pivot := index M (p M !!! ii) ii in
  fold_left (eliminate_row n ii pivot) (seq (S ii) (m - S ii)) M.

(** Lines 94-115: the body of the loop over the pivot column [ii]. *)
Definition factor_step `{Scalar R} (m n : nat) (M : matrix R) (ii : nat) : matrix R :=
  let imaxpivot := find_pivot M m ii in
  eliminate m n ii (pivot_swap M ii imaxpivot).

(** The solver after the first [k] iterations of the loop of line 93,
    entered with the index vector of lines 82-84. *)
Definition factor_loop `{Scalar R} (M : matrix R) (k : nat) : matrix R :=
  let m := get_rows M in
  let n := get_cols M in
  fold_left (factor_step m n) (seq 0 k) (init_p M).

Definition factorize `{Scalar R} (M : matrix R) : option (matrix R) :=
  let m := get_rows M in
  let n := get_cols M in
  if decide (m = n)
  then Some (set_factorized (factor_loop M (m - 1)) true)
  else None.




(** ** [matrix::solve] (lines 43-77) *)

(** Lines 62-63 and 73-74, the inner loop of both substitutions: starting
    from [f], subtract the terms [index (p[ii], kk) * b[p[kk]]] one after
    the other, for [kk] running through [ks]. *)
Definition subtract_terms `{Scalar R} (M : matrix R) (b : list R) (ii : nat)
    (ks : list nat) (f : R) : R :=
  fold_left (λ f kk, rsub f (rmul (index M (p M !!! ii) kk) (b !!! (p M !!! kk)))) ks f.

(** Lines 61-64: one row of the forward substitution; [b] is the storage of
    [rhs]. *)
Definition forward_row `{Scalar R} (M : matrix R) (b : list R) (ii : nat) : list R :=
  let f := subtract_terms M b ii (seq 0 ii) (b !!! (p M !!! ii)) in
  <[p M !!! ii := f]> b.

Definition forward_substitution `{Scalar R} (M : matrix R) (b : list R) : list R :=
  fold_left (forward_row M) (seq 0 (get_rows M)) b.

(** Lines 71-75: one row of the backward substitution. *)
Definition backward_row `{Scalar R} (M : matrix R) (b : list R) (ii : nat) : list R :=
  let f := subtract_terms M b ii (seq (S ii) (get_cols M - S ii)) (b !!! (p M !!! ii)) in
  <[p M !!! ii := rdiv f (index M (p M !!! ii) ii)]> b.

Definition backward_substitution `{Scalar R} (M : matrix R) (b : list R) : list R :=
  fold_left (λ b jj, backward_row M b (get_rows M - jj)) (seq 1 (get_rows M)) b.

(** [solve] returns the solver after the call together with the storage of
    [rhs] after the call; [rhs] is an object distinct from the solver. *)
Definition solve `{Scalar R} (M : matrix R) (b : list R) : option (matrix R * list R) :=
  M' ← (if factorized M then Some M else factorize M);
  Some (M', backward_substitution M' (forward_substitution M' b)).

(** A client that calls [solve] on one solver, once for each right-hand
    side of [bs], in order.  It returns the solver after the last call and
    the solutions. *)
Fixpoint solve_all `{Scalar R} (M : matrix R) (bs : list (list R))
    : option (matrix R * list (list R)) :=
  match bs with
  | [] => Some (M, [])
  | b :: bs =>
      '(M1, x) ← solve M b;
      '(M2, xs) ← solve_all M1 bs;
      Some (M2, x :: xs)
  end.

(** A client that builds a new solver from the same matrix for each
    right-hand side of [bs]. *)
Definition solve_each `{Scalar R} (M : matrix R) (bs : list (list R))
    : option (list (list R)) :=
  mapM (λ b, snd <$> solve M b) bs.

(** ** Instances used to run the code *)

(** [[1 3] [2 1]], stored by columns. *)
Definition A_swap : matrix float := Matrix [1; 2; 3; 1]%float 2 2 false [].

(** [[1 2] [2 4]], singular. *)
Definition A_singular : matrix float := Matrix [1; 2; 2; 4]%float 2 2 false [].

(** [[2 1] [1 3]], the small case of the specification. *)
Definition A_small : matrix float := Matrix [2; 1; 1; 3]%float 2 2 false [].


(** [[0 1] [-1 0]], a rotation. *)
Definition A_rotation : matrix float := Matrix [0; -1; 1; 0]%float 2 2 false [].

(** The solver [A_swap] once factorized. *)
Definition A_swap_factorized : matrix float :=
  Matrix [0.5; 2; 2.5; 1]%float 2 2 true [1; 0].

(** The 2 by 2 identity. *)
Definition A_id : matrix float := Matrix [1; 0; 0; 1]%float 2 2 false [].

(** The product [A x] of a matrix and a vector, row by row, and the test
    "[y] equals [b] up to the relative tolerance [tol]", entry by entry. *)
Definition row_times `{Scalar R} (M : matrix R) (x : list R) (i : nat) : R :=
  fold_left (λ s j, radd s (rmul (index M i j) (x !!! j))) (seq 0 (cols M)) rzero.

Definition mat_vec `{Scalar R} (M : matrix R) (x : list R) : list R :=
  map (row_times M x) (seq 0 (rows M)).

(** The relative tolerance [1e-9]. *)
Definition tolerance : float := (1 / 1000000000)%float.

Definition close_to (tol y b : float) : bool :=
  PrimFloat.leb (PrimFloat.abs (PrimFloat.sub y b)) (PrimFloat.mul tol (PrimFloat.abs b)).

Definition all_close (tol : float) (ys bs : list float) : bool :=
  bool_decide (length ys = length bs) &&
  forallb (λ yb, close_to tol yb.1 yb.2) (zip ys bs).

(** ** Rational scalars *)

(** The operations of the code on the rationals, to run the parts of the
    code that hold for any scalars on a second scalar type. *)
#[export] Instance rational_scalar : Scalar Qc := {|
  rzero := 0%Qc;
  radd := Qcplus;
  rsub := Qcminus;
  rmul := Qcmult;
  rdiv := Qcdiv;
  ropp := Qcopp;
  rgtb := λ a b, match Qccompare a b with Gt => true | _ => false end
|}.

(** Rational instances. *)
Definition qc (z : Z) : Qc := Q2Qc (inject_Z z).

(** The column [7 -2] and the 2 by 3 matrix [[1 0 2] [0 1 1]], over the
    rationals. *)
Definition Q_column : matrix Qc := Matrix [qc 7; qc (-2)] 2 1 false [].
Definition Q_wide : matrix Qc :=
  Matrix [qc 1; qc 0; qc 0; qc 1; qc 2; qc 1] 2 3 false [].

(** The 1 by 1 matrix [[4]], on doubles. *)
Definition A_one : matrix float := Matrix [4]%float 1 1 false [].

(** [[2 1 1] [4 3 3] [8 7 9]], on doubles. *)
Definition A_three : matrix float :=
  Matrix [2; 4; 8; 1; 3; 7; 1; 3; 9]%float 3 3 false [].

(** ** The order of the binary64 values *)



(** * Properties *)

(** ** Loops *)

Section loops.
Context {St : Type}.

(** The rule of the counted loop: an invariant that holds on entry and is
    kept by every iteration holds on exit. *)
Lemma fold_left_seq_inv (I : nat → St → Prop) (f : St → nat → St) a n s :
  I a s →
  (∀ k s, a ≤ k < a + n → I k s → I (k + 1) (f s k)) →
  I (a + n) (fold_left f (seq a n) s).
Proof.
  revert a s. induction n as [|n IH]; intros a s Ha Hstep; simpl.
  - by rewrite Nat.add_0_r.
  - replace (a + S n) with (S a + n) by lia. apply IH.
    + replace (S a) with (a + 1) by lia. apply Hstep; [lia|done].
    + intros k s' Hk. apply Hstep. lia.
Qed.

(** The rule for a loop that counts from zero. *)
Lemma fold_left_seq_inv0 (I : nat → St → Prop) (f : St → nat → St) n s :
  I 0 s →
  (∀ k s, k < n → I k s → I (k + 1) (f s k)) →
  I n (fold_left f (seq 0 n) s).
Proof.
  intros H0 Hstep. change n with (0 + n) at 1.
  apply fold_left_seq_inv; [done|]. intros k s' Hk. apply Hstep. lia.
Qed.

(** The same rule for a property that does not mention the counter. *)
Lemma fold_left_seq_pres (I : St → Prop) (f : St → nat → St) a n s :
  I s → (∀ k s, a ≤ k < a + n → I s → I (f s k)) → I (fold_left f (seq a n) s).
Proof.
  intros Hs Hstep.
  apply (fold_left_seq_inv (λ _, I)); [done|]. intros; by apply Hstep.
Qed.

Lemma fold_left_seq_snoc (f : St → nat → St) a n s :
  fold_left f (seq a (n + 1)) s = f (fold_left f (seq a n) s) (a + n).
Proof. by rewrite seq_app, fold_left_app. Qed.
End loops.

(** ** Storage and index vector *)

Section storage.
Context `{Scalar R}.
Implicit Types (M : matrix R) (q : list nat).

Lemma sub2ind_lt M i j :
  i < rows M → j < cols M → sub2ind M i j < rows M * cols M.
Proof. unfold sub2ind. nia. Qed.

Lemma sub2ind_inj M i j i' j' :
  i < rows M → i' < rows M → sub2ind M i j = sub2ind M i' j' → i = i' ∧ j = j'.
Proof. unfold sub2ind. intros Hi Hi' Heq. assert (j = j') by nia. subst. lia. Qed.

Lemma storage_ok_set_index M i j v : storage_ok M → storage_ok (set_index M i j v).
Proof. unfold storage_ok, set_index; simpl. by rewrite length_insert. Qed.

(** Reading the entry that was just written. *)
Lemma index_set_index_eq M i j v :
  storage_ok M → i < rows M → j < cols M → index (set_index M i j v) i j = v.
Proof.
  intros Hok Hi Hj. unfold index, set_index; simpl.
  change (sub2ind (set_data M _) i j) with (sub2ind M i j).
  apply list_lookup_total_insert_eq. rewrite Hok. by apply sub2ind_lt.
Qed.

(** Reading any other entry. *)
Lemma index_set_index_ne M i j v i' j' :
  i < rows M → i' < rows M → ¬ (i = i' ∧ j = j') →
  index (set_index M i j v) i' j' = index M i' j'.
Proof.
  intros Hi Hi' Hne. unfold index, set_index; simpl.
  change (sub2ind (set_data M _) i' j') with (sub2ind M i' j').
  apply list_lookup_total_insert_ne. intros Heq.
  by apply Hne, (sub2ind_inj M).
Qed.

Lemma index_set_index M i j v i' j' :
  storage_ok M → i < rows M → j < cols M → i' < rows M →
  index (set_index M i j v) i' j' =
    if decide (i = i' ∧ j = j') then v else index M i' j'.
Proof.
  intros Hok Hi Hj Hi'. case_decide as Hd.
  - destruct Hd as [<- <-]. by apply index_set_index_eq.
  - by apply index_set_index_ne.
Qed.

Lemma same_frame_refl M : same_frame M M.
Proof. by repeat split. Qed.

Lemma same_frame_trans M1 M2 M3 :
  same_frame M1 M2 → same_frame M2 M3 → same_frame M1 M3.
Proof. unfold same_frame. intros (?&?&?&?&?) (?&?&?&?&?). repeat split; congruence. Qed.

Lemma same_frame_set_index M i j v : same_frame M (set_index M i j v).
Proof. unfold same_frame, set_index; simpl. by rewrite length_insert. Qed.

Lemma same_frame_storage_ok M M' : same_frame M M' → storage_ok M → storage_ok M'.
Proof. unfold same_frame, storage_ok. intros (->&->&_&_&->). done. Qed.

(** *** Permutations *)

Lemma valid_permutation_seq n : valid_permutation (seq 0 n) n.
Proof.
  split; [by rewrite length_seq|]. split; [apply NoDup_seq|].
  intros x. rewrite elem_of_seq. lia.
Qed.

Lemma valid_permutation_perm q q' n :
  q' ≡ₚ q → valid_permutation q n → valid_permutation q' n.
Proof.
  intros Hp (Hl & Hnd & Hmem). split; [by rewrite Hp|].
  split; [by rewrite Hp|]. intros x. by rewrite Hp.
Qed.

Lemma valid_permutation_lt q n i :
  valid_permutation q n → i < n → q !!! i < n.
Proof.
  intros (Hl & _ & Hmem) Hi. apply Hmem, list_elem_of_lookup. exists i.
  apply list_lookup_lookup_total_lt. lia.
Qed.

Lemma valid_permutation_inj q n i j :
  valid_permutation q n → i < n → j < n → q !!! i = q !!! j → i = j.
Proof.
  intros (Hl & Hnd & _) Hi Hj Heq.
  eapply NoDup_lookup; [exact Hnd| |].
  - apply list_lookup_lookup_total_lt. lia.
  - rewrite Heq. apply list_lookup_lookup_total_lt. lia.
Qed.

(** Every row below [n] is named by exactly one position of [q]. *)
Lemma valid_permutation_surj q n r :
  valid_permutation q n → r < n → ∃ i, i < n ∧ q !!! i = r.
Proof.
  intros (Hl & _ & Hmem) Hr. apply Hmem, list_elem_of_lookup in Hr as [i Hi].
  exists i. split; [apply lookup_lt_Some in Hi; lia|].
  by apply list_lookup_total_correct.
Qed.

Lemma swap_p_perm q i j : i < length q → j < length q → swap_p q i j ≡ₚ q.
Proof.
  intros Hi Hj. unfold swap_p.
  apply Permutation_insert_swap; by apply list_lookup_lookup_total_lt.
Qed.

Lemma length_swap_p q i j : length (swap_p q i j) = length q.
Proof. unfold swap_p. by rewrite !length_insert. Qed.

Lemma swap_p_lookup q i j k :
  i < length q → j < length q →
  swap_p q i j !!! k =
    if decide (k = j) then q !!! i else if decide (k = i) then q !!! j else q !!! k.
Proof.
  intros Hi Hj. unfold swap_p. repeat case_decide; subst.
  - rewrite list_lookup_total_insert_eq; [done|by rewrite length_insert].
  - rewrite list_lookup_total_insert_ne by done.
    by rewrite list_lookup_total_insert_eq.
  - by rewrite !list_lookup_total_insert_ne.
Qed.

(** *** Lines 82-84 *)

Lemma init_p_spec M :
  init_p M = set_p M (seq 0 (rows M)).
Proof.
  unfold init_p.
  pose (I := λ (k : nat) (T : matrix R),
    data T = data M ∧ rows T = rows M ∧ cols T = cols M ∧
    factorized T = factorized M ∧ length (p T) = rows M ∧
    ∀ i, i < k → p T !! i = Some i).
  assert (I (0 + rows M)
    (fold_left (λ M ii, set_p M (<[ii := ii]> (p M))) (seq 0 (rows M))
               (set_p M (resize (rows M) 0 (p M))))) as HI.
  { apply fold_left_seq_inv.
    - unfold I; simpl. rewrite length_resize. repeat split; try done. lia.
    - intros k T Hk (Hd & Hr & Hc & Hf & Hl & Hp). unfold I; simpl.
      rewrite length_insert. repeat split; try done.
      intros i Hi. destruct (decide (i = k)) as [->|Hne].
      + apply list_lookup_insert_eq. lia.
      + rewrite list_lookup_insert_ne by done. apply Hp. lia. }
  destruct HI as (Hd & Hr & Hc & Hf & Hl & Hp).
  destruct (fold_left _ _ _) as [d r c f q]; simpl in *. unfold set_p; simpl.
  subst. f_equal. apply list_eq. intros i.
  destruct (decide (i < rows M)) as [Hi|Hi].
  - rewrite Hp by done. symmetry. by apply lookup_seq_lt.
  - rewrite !lookup_ge_None_2; [done|rewrite length_seq; lia|lia].
Qed.
End storage.

(** ** Pivot search and row interchange *)

Section pivoting.
Context `{Scalar R}.
Implicit Types (M : matrix R).

(** One iteration of the scan of lines 97-102. *)
Lemma pivot_scan_snoc M ii d :
  pivot_scan M (S ii + d + 1) ii =
    let '(maxpivot, imaxpivot) := pivot_scan M (S ii + d) ii in
    if rgtb (index M (p M !!! (S ii + d)) ii) maxpivot
    then (index M (p M !!! (S ii + d)) ii, S ii + d)
    else (maxpivot, imaxpivot).
Proof.
  unfold pivot_scan.
  replace (S ii + d + 1 - S ii) with (d + 1) by lia.
  replace (S ii + d - S ii) with d by lia.
  rewrite fold_left_seq_snoc. by destruct (fold_left _ _ _).
Qed.

(** Without any assumption on [>]: the scan returns a candidate position,
    and the value it returns is the entry found there. *)
Lemma pivot_scan_range M m ii :
  let '(maxpivot, imaxpivot) := pivot_scan M m ii in
  maxpivot = index M (p M !!! imaxpivot) ii ∧
  ii ≤ imaxpivot ∧ (imaxpivot < m ∨ imaxpivot = ii).
Proof.
  unfold pivot_scan.
  apply (fold_left_seq_pres (λ s : R * nat,
    let '(mx, im) := s in
    mx = index M (p M !!! im) ii ∧ ii ≤ im ∧ (im < m ∨ im = ii))).
  - split; [done|]. split; [done|by right].
  - intros k [mx im] Hk (Hmx & Hle & Hlt).
    destruct (rgtb _ _); [|done]. split; [done|]. split; [lia|]. left. lia.
Qed.

Lemma find_pivot_range M m ii :
  ii ≤ find_pivot M m ii ∧ (find_pivot M m ii < m ∨ find_pivot M m ii = ii).
Proof.
  unfold find_pivot. pose proof (pivot_scan_range M m ii) as Hs.
  destruct (pivot_scan M m ii) as [mx im]. simpl. tauto.
Qed.

End pivoting.

(** ** Elimination *)

Section elimination.
Context `{Scalar R}.
Implicit Types (M : matrix R).

Lemma eliminate_row_frame n ii pivot M jj :
  same_frame M (eliminate_row n ii pivot M jj).
Proof.
  unfold eliminate_row. apply (fold_left_seq_pres (same_frame M)).
  - apply same_frame_set_index.
  - intros k T _ HS. eapply same_frame_trans; [exact HS|apply same_frame_set_index].
Qed.

Lemma eliminate_frame m n ii M : same_frame M (eliminate m n ii M).
Proof.
  unfold eliminate. apply (fold_left_seq_pres (same_frame M)).
  - apply same_frame_refl.
  - intros k T _ HS. eapply same_frame_trans; [exact HS|apply eliminate_row_frame].
Qed.

(** The entries after lines 110-113 have run for the row [jj]: the row
    [p[jj]] holds the multiplier in column [ii] and the updated entries
    to the right of it; nothing else has changed. *)
Lemma eliminate_row_spec n ii pivot M jj :
  storage_ok M → n = cols M → ii < cols M →
  p M !!! jj < rows M → p M !!! ii < rows M → p M !!! jj ≠ p M !!! ii →
  ∀ i j, i < rows M → j < cols M →
    index (eliminate_row n ii pivot M jj) i j =
      if decide (i = p M !!! jj) then
        if decide (j = ii) then rdiv (index M i ii) pivot
        else if decide (ii < j) then
          radd (index M i j)
               (rmul (ropp (index M (p M !!! ii) j)) (rdiv (index M i ii) pivot))
        else index M i j
      else index M i j.
Proof.
  intros Hok -> Hii Hr Hq Hrq.
  set (r := p M !!! jj) in *. set (q := p M !!! ii) in *.
  set (mult := rdiv (index M r ii) pivot).
  pose (I := λ (k : nat) (T : matrix R),
    same_frame M T ∧ storage_ok T ∧
    ∀ i j, i < rows M → j < cols M →
      index T i j =
        if decide (i = r) then
          if decide (j = ii) then mult
          else if decide (ii < j < k) then
            radd (index M r j) (rmul (ropp (index M q j)) mult)
          else index M r j
        else index M i j).
  assert (I (S ii + (cols M - S ii)) (eliminate_row (cols M) ii pivot M jj)) as HI.
  { unfold eliminate_row. apply fold_left_seq_inv.
    - split; [apply same_frame_set_index|].
      split; [by apply storage_ok_set_index|].
      intros i j Hi Hj. fold r. rewrite index_set_index by done.
      repeat case_decide; subst; try done; try lia; naive_solver.
    - intros k T Hk (Hfr & HokS & Hidx).
      pose proof Hfr as (Hrows & Hcols & Hp & _ & _).
      split; [eapply same_frame_trans; [exact Hfr|apply same_frame_set_index]|].
      split; [by apply storage_ok_set_index|].
      intros i j Hi Hj. rewrite Hp. fold r q.
      rewrite index_set_index by (try done; lia).
      rewrite !Hidx by (try done; lia).
      repeat case_decide; try done; try lia; destruct_and?; simplify_eq; try done; try lia. }
  replace (S ii + (cols M - S ii)) with (cols M) in HI by lia.
  destruct HI as (_ & _ & Hidx). intros i j Hi Hj. rewrite Hidx by done.
  repeat case_decide; subst; try done; lia.
Qed.

(** The entries after lines 107-114 have run for the pivot column [ii],
    read through the index vector. *)
Lemma eliminate_spec m n ii M :
  storage_ok M → m = rows M → n = cols M →
  valid_permutation (p M) (rows M) → ii < rows M → ii < cols M →
  ∀ jj j, jj < rows M → j < cols M →
    index (eliminate m n ii M) (p M !!! jj) j =
      if decide (ii < jj) then
        if decide (j = ii) then
          rdiv (index M (p M !!! jj) ii) (index M (p M !!! ii) ii)
        else if decide (ii < j) then
          radd (index M (p M !!! jj) j)
               (rmul (ropp (index M (p M !!! ii) j))
                     (rdiv (index M (p M !!! jj) ii) (index M (p M !!! ii) ii)))
        else index M (p M !!! jj) j
      else index M (p M !!! jj) j.
Proof.
  intros Hok -> -> Hperm Hii Hiic.
  set (pivot := index M (p M !!! ii) ii).
  pose (I := λ (k : nat) (T : matrix R),
    same_frame M T ∧ storage_ok T ∧
    ∀ jj j, jj < rows M → j < cols M →
      index T (p M !!! jj) j =
        if decide (ii < jj < k) then
          if decide (j = ii) then rdiv (index M (p M !!! jj) ii) pivot
          else if decide (ii < j) then
            radd (index M (p M !!! jj) j)
                 (rmul (ropp (index M (p M !!! ii) j))
                       (rdiv (index M (p M !!! jj) ii) pivot))
          else index M (p M !!! jj) j
        else index M (p M !!! jj) j).
  assert (I (S ii + (rows M - S ii)) (eliminate (rows M) (cols M) ii M)) as HI.
  { unfold eliminate. fold pivot. apply fold_left_seq_inv.
    - split; [apply same_frame_refl|]. split; [done|].
      intros jj j Hjj Hj. case_decide; [lia|done].
    - intros k T Hk (Hfr & HokS & Hidx).
      pose proof Hfr as (Hrows & Hcols & Hp & _ & _).
      split; [eapply same_frame_trans; [exact Hfr|apply eliminate_row_frame]|].
      split; [eapply same_frame_storage_ok; [apply eliminate_row_frame|done]|].
      intros jj j Hjj Hj.
      assert (∀ a, a < rows M → p M !!! a < rows M) as Hlt
        by (intros; by eapply valid_permutation_lt).
      rewrite <- Hcols at 1.
      rewrite eliminate_row_spec; rewrite ?Hp, ?Hrows, ?Hcols;
        try done; try (apply Hlt; lia).
      2:{ intros Heq. eapply valid_permutation_inj in Heq; [|done|lia|lia]. lia. }
      rewrite !(Hidx ii) by (try done; lia).
      rewrite !(Hidx jj) by (try done; lia).
      destruct (decide (p M !!! jj = p M !!! k)) as [Heq|Hne].
      + eapply valid_permutation_inj in Heq; [|done|lia|lia]. subst jj.
        repeat case_decide; subst; try done; lia.
      + assert (jj ≠ k) by congruence.
        repeat case_decide; subst; try done; lia. }
  replace (S ii + (rows M - S ii)) with (rows M) in HI by lia.
  destruct HI as (_ & _ & Hidx). intros jj j Hjj Hj. rewrite Hidx by done.
  repeat case_decide; subst; try done; lia.
Qed.
End elimination.

(** ** The factorization loop *)

Section factorization.
Context `{Scalar R}.
Implicit Types (M : matrix R).

Lemma pivot_swap_data M ii k :
  data (pivot_swap M ii k) = data M ∧ rows (pivot_swap M ii k) = rows M ∧
  cols (pivot_swap M ii k) = cols M ∧ factorized (pivot_swap M ii k) = factorized M.
Proof. unfold pivot_swap. by case_decide. Qed.

Lemma index_pivot_swap M ii k i j : index (pivot_swap M ii k) i j = index M i j.
Proof. unfold pivot_swap. by case_decide. Qed.

Lemma pivot_swap_p M ii k :
  p (pivot_swap M ii k) = if decide (k ≠ ii) then swap_p (p M) ii k else p M.
Proof. unfold pivot_swap. by case_decide. Qed.

Lemma pivot_swap_perm M ii k :
  ii < length (p M) → k < length (p M) → p (pivot_swap M ii k) ≡ₚ p M.
Proof.
  intros Hii Hk. rewrite pivot_swap_p. case_decide; [|done]. by apply swap_p_perm.
Qed.


Lemma factor_step_p m n M ii :
  p (factor_step m n M ii) = p (pivot_swap M ii (find_pivot M m ii)).
Proof. unfold factor_step. by destruct (eliminate_frame m n ii (pivot_swap M ii (find_pivot M m ii))) as (_&_&->&_). Qed.

Lemma factor_step_invariant M T ii :
  loop_invariant M T → loop_invariant M (factor_step (rows M) (cols M) T ii).
Proof.
  intros (Hr & Hc & Hf & Hd & Hperm).
  pose proof (find_pivot_range T (rows M) ii) as [Hle Hlt].
  pose proof (pivot_swap_data T ii (find_pivot T (rows M) ii)) as (Hd' & Hr' & Hc' & Hf').
  destruct (eliminate_frame (rows M) (cols M) ii
              (pivot_swap T ii (find_pivot T (rows M) ii))) as (Er & Ec & Ep & Ef & Ed).
  assert (p (pivot_swap T ii (find_pivot T (rows M) ii)) ≡ₚ p T) as Hsw.
  { rewrite pivot_swap_p. case_decide as Hne; [|done]. destruct Hperm as (Hl & _).
    apply swap_p_perm; lia. }
  unfold factor_step, loop_invariant.
  split; [congruence|]. split; [congruence|]. split; [congruence|].
  split; [congruence|]. rewrite Ep. by apply (valid_permutation_perm (p T)).
Qed.

Lemma factor_loop_invariant M k : loop_invariant M (factor_loop M k).
Proof.
  unfold factor_loop, get_rows, get_cols.
  apply (fold_left_seq_pres (loop_invariant M)).
  - rewrite init_p_spec. repeat split; try done; apply valid_permutation_seq.
  - intros i T _ HS. by apply factor_step_invariant.
Qed.

Lemma factor_loop_succ M k :
  factor_loop M (k + 1) = factor_step (rows M) (cols M) (factor_loop M k) k.
Proof. unfold factor_loop, get_rows, get_cols. by rewrite fold_left_seq_snoc. Qed.

Lemma factor_loop_storage_ok M k : storage_ok M → storage_ok (factor_loop M k).
Proof.
  destruct (factor_loop_invariant M k) as (Hr & Hc & _ & Hd & _).
  unfold storage_ok. congruence.
Qed.

Lemma factorize_square M :
  rows M = cols M → factorize M = Some (set_factorized (factor_loop M (rows M - 1)) true).
Proof. intros Hsq. unfold factorize, get_rows, get_cols. by rewrite decide_True. Qed.

Lemma factorize_Some M M' :
  factorize M = Some M' →
  rows M = cols M ∧ M' = set_factorized (factor_loop M (rows M - 1)) true.
Proof.
  unfold factorize, get_rows, get_cols. case_decide; [|done]. by intros [= <-].
Qed.
End factorization.

(** ** Substitution *)

Section substitution.
Context `{Scalar R}.
Implicit Types (M : matrix R) (b y x : list R).

(** The inner loop reads [b] at the positions [p[kk]], [kk] in [ks], only. *)
Lemma subtract_terms_ext M b b' ii ks f :
  (∀ kk, kk ∈ ks → b !!! (p M !!! kk) = b' !!! (p M !!! kk)) →
  subtract_terms M b ii ks f = subtract_terms M b' ii ks f.
Proof.
  unfold subtract_terms. revert f. induction ks as [|k ks IH]; intros f Hks; [done|].
  simpl. rewrite (Hks k) by (by left). apply IH. intros kk Hkk. apply Hks. by right.
Qed.

Lemma length_forward_row M b ii : length (forward_row M b ii) = length b.
Proof. unfold forward_row. by rewrite length_insert. Qed.

Lemma length_backward_row M b ii : length (backward_row M b ii) = length b.
Proof. unfold backward_row. by rewrite length_insert. Qed.

Lemma length_forward_substitution M b : length (forward_substitution M b) = length b.
Proof.
  unfold forward_substitution.
  apply (fold_left_seq_pres (λ y, length y = length b)); [done|].
  intros k y _ Hy. by rewrite length_forward_row.
Qed.

Lemma length_backward_substitution M b : length (backward_substitution M b) = length b.
Proof.
  unfold backward_substitution.
  apply (fold_left_seq_pres (λ y, length y = length b)); [done|].
  intros k y _ Hy. by rewrite length_backward_row.
Qed.

(** Lines 59-65.  After the sweep the entry at [p[ii]] is the original
    one minus the terms of the rows before [ii], taken with the entries
    the sweep itself produced; positions that [p] does not name keep
    their value. *)
Lemma forward_substitution_spec M b :
  valid_permutation (p M) (rows M) → rows M ≤ length b →
  let y := forward_substitution M b in
  (∀ ii, ii < rows M →
     y !!! (p M !!! ii) = subtract_terms M y ii (seq 0 ii) (b !!! (p M !!! ii))) ∧
  (∀ i, rows M ≤ i → y !!! i = b !!! i).
Proof.
  intros Hperm Hlen.
  pose (I := λ (k : nat) (y : list R),
    length y = length b ∧
    (∀ ii, ii < k →
       y !!! (p M !!! ii) = subtract_terms M y ii (seq 0 ii) (b !!! (p M !!! ii))) ∧
    (∀ i, (∀ ii, ii < k → p M !!! ii ≠ i) → y !!! i = b !!! i)).
  assert (I (0 + rows M) (forward_substitution M b)) as HI.
  { unfold forward_substitution, get_rows. apply fold_left_seq_inv.
    - split; [done|]. split; [intros ii Hii; lia|done].
    - intros k y Hk (Hly & Hdone & Hrest). simpl in Hk.
      assert (p M !!! k < length y) as Hpk.
      { rewrite Hly. eapply Nat.lt_le_trans; [|exact Hlen].
        eapply valid_permutation_lt; [done|lia]. }
      assert (∀ ii, ii < rows M → ii ≠ k → p M !!! k ≠ p M !!! ii) as Hne.
      { intros ii Hii Hik Heq. apply Hik. symmetry.
        eapply valid_permutation_inj; [done|lia|lia|done]. }
      split; [by rewrite length_forward_row|]. split.
      + intros ii Hii. destruct (decide (ii = k)) as [->|Hik].
        * unfold forward_row at 1. rewrite list_lookup_total_insert_eq by done.
          rewrite (Hrest (p M !!! k)).
          2:{ intros ii Hii'. apply not_eq_sym, Hne; lia. }
          apply subtract_terms_ext. intros kk Hkk%elem_of_seq.
          unfold forward_row. rewrite list_lookup_total_insert_ne; [done|].
          apply Hne; lia.
        * unfold forward_row at 1.
          rewrite list_lookup_total_insert_ne by (apply Hne; lia).
          rewrite Hdone by lia.
          apply subtract_terms_ext. intros kk Hkk%elem_of_seq.
          unfold forward_row. rewrite list_lookup_total_insert_ne; [done|].
          apply Hne; lia.
      + intros i Hi. unfold forward_row.
        rewrite list_lookup_total_insert_ne by (apply Hi; lia).
        apply Hrest. intros ii Hii. apply Hi. lia. }
  destruct HI as (_ & Hdone & Hrest). split; [done|].
  intros i Hi. apply Hrest. intros ii Hii Heq.
  pose proof (valid_permutation_lt (p M) (rows M) ii Hperm Hii). lia.
Qed.

(** Lines 69-76.  After the sweep the entry at [p[ii]] is the one before
    the sweep minus the terms of the rows after [ii], taken with the
    entries the sweep itself produced, divided by the diagonal entry. *)
Lemma backward_substitution_spec M y :
  valid_permutation (p M) (rows M) → rows M = cols M → rows M ≤ length y →
  let x := backward_substitution M y in
  (∀ ii, ii < rows M →
     x !!! (p M !!! ii) =
       rdiv (subtract_terms M x ii (seq (S ii) (cols M - S ii)) (y !!! (p M !!! ii)))
            (index M (p M !!! ii) ii)) ∧
  (∀ i, rows M ≤ i → x !!! i = y !!! i).
Proof.
  intros Hperm Hsq Hlen.
  pose (I := λ (k : nat) (x : list R),
    length x = length y ∧
    (∀ ii, ii < rows M → rows M < ii + k →
       x !!! (p M !!! ii) =
         rdiv (subtract_terms M x ii (seq (S ii) (cols M - S ii)) (y !!! (p M !!! ii)))
              (index M (p M !!! ii) ii)) ∧
    (∀ i, (∀ ii, ii < rows M → rows M < ii + k → p M !!! ii ≠ i) → x !!! i = y !!! i)).
  assert (I (1 + rows M) (backward_substitution M y)) as HI.
  { unfold backward_substitution, get_rows. apply fold_left_seq_inv.
    - split; [done|]. split; [intros ii Hii; lia|done].
    - intros k x Hk (Hlx & Hdone & Hrest).
      set (i0 := rows M - k). assert (i0 < rows M ∧ rows M = i0 + k) as [Hi0 Hi0k] by lia.
      assert (p M !!! i0 < length x) as Hpk.
      { rewrite Hlx. eapply Nat.lt_le_trans; [|exact Hlen].
        by eapply valid_permutation_lt. }
      assert (∀ ii, ii < rows M → ii ≠ i0 → p M !!! i0 ≠ p M !!! ii) as Hne.
      { intros ii Hii Hik Heq. apply Hik. symmetry.
        eapply valid_permutation_inj; [done|lia|lia|done]. }
      split; [by rewrite length_backward_row|]. split.
      + intros ii Hii Hiik. destruct (decide (ii = i0)) as [->|Hik].
        * unfold backward_row at 1. rewrite list_lookup_total_insert_eq by done.
          rewrite (Hrest (p M !!! i0)).
          2:{ intros ii Hii' Hlt. apply not_eq_sym, Hne; lia. }
          unfold get_cols. f_equal.
          apply subtract_terms_ext. intros kk Hkk%elem_of_seq.
          unfold backward_row. rewrite list_lookup_total_insert_ne; [done|].
          apply Hne; lia.
        * unfold backward_row at 1.
          rewrite list_lookup_total_insert_ne by (apply Hne; lia).
          rewrite Hdone by lia. f_equal.
          apply subtract_terms_ext. intros kk Hkk%elem_of_seq.
          unfold backward_row. rewrite list_lookup_total_insert_ne; [done|].
          apply Hne; lia.
      + intros i Hi. unfold backward_row.
        rewrite list_lookup_total_insert_ne by (apply Hi; lia).
        apply Hrest. intros ii Hii Hlt. apply Hi; lia. }
  destruct HI as (_ & Hdone & Hrest). split.
  - intros ii Hii. apply Hdone; lia.
  - intros i Hi. apply Hrest. intros ii Hii _ Heq.
    pose proof (valid_permutation_lt (p M) (rows M) ii Hperm Hii). lia.
Qed.
End substitution.

(** ** Transposition *)

Section transposition.
Context `{Scalar R}.
Implicit Types (M T : matrix R).

Lemma storage_ok_new_matrix r c : storage_ok (new_matrix (R:=R) r c).
Proof. unfold storage_ok, new_matrix; simpl. by rewrite length_replicate. Qed.

(** The loops of lines 14-16 fill the result column by column. *)
Lemma transpose_loops M :
  same_frame (new_matrix (cols M) (rows M)) (transpose M) ∧
  storage_ok (transpose M) ∧
  ∀ i j, i < cols M → j < rows M → index (transpose M) i j = index M j i.
Proof.
  set (T0 := new_matrix (R:=R) (cols M) (rows M)).
  pose (I := λ (k : nat) (T : matrix R),
    same_frame T0 T ∧ storage_ok T ∧
    ∀ i j, i < cols M → j < k → index T i j = index M j i).
  assert (I (rows M) (transpose M)) as HI.
  { unfold transpose, get_rows, get_cols. fold T0.
    change (cols T0) with (rows M). change (rows T0) with (cols M).
    apply (fold_left_seq_inv0 I).
    - split; [apply same_frame_refl|]. split; [apply storage_ok_new_matrix|].
      intros i j _ Hj. lia.
    - intros k T Hk (Hfr & Hok & Hidx).
      pose (J := λ (l : nat) (T' : matrix R),
        same_frame T0 T' ∧ storage_ok T' ∧
        ∀ i j, i < cols M → j < k ∨ (j = k ∧ i < l) → index T' i j = index M j i).
      assert (J (cols M)
        (fold_left (λ retval i, set_index retval i k (const_index M k i))
           (seq 0 (cols M)) T)) as HJ.
      { apply (fold_left_seq_inv0 J).
        - split; [done|]. split; [done|]. intros i j Hi [Hj|[_ Hl]]; [|lia].
          by apply Hidx.
        - intros l T' Hl (Hfr' & Hok' & Hidx').
          pose proof Hfr' as (Hrows & Hcols & _). simpl in Hrows, Hcols.
          split; [eapply same_frame_trans; [exact Hfr'|apply same_frame_set_index]|].
          split; [by apply storage_ok_set_index|].
          intros i j Hi Hj. rewrite index_set_index by (try done; lia).
          case_decide as Hd.
          + destruct Hd as [<- <-]. done.
          + apply Hidx'; [done|]. destruct Hj as [Hj|[-> Hj]]; [by left|].
            right. split; [done|]. destruct (decide (i = l)); [naive_solver|lia]. }
      destruct HJ as (HfrJ & HokJ & HidxJ).
      replace (rows T) with (cols M) by (by destruct Hfr as (-> & _)).
      split; [done|]. split; [done|].
      intros i j Hi Hj. apply HidxJ; [done|].
      destruct (decide (j = k)) as [->|]; [right; simpl; lia|left; lia]. }
  destruct HI as (Hfr & Hok & Hidx). done.
Qed.

(** Two storages of the same shape with the same entries are equal. *)
Lemma data_ext M T :
  storage_ok M → storage_ok T → rows T = rows M → cols T = cols M →
  (∀ i j, i < rows M → j < cols M → index T i j = index M i j) →
  data T = data M.
Proof.
  unfold storage_ok. intros HM HT Hr Hc Hidx.
  apply (list_eq_same_length _ _ (rows M * cols M)); [done|congruence|].
  intros k x y Hk Hx Hy.
  assert (0 < rows M) as Hpos by (destruct (rows M); simpl in *; lia).
  pose proof (Nat.mod_upper_bound k (rows M) ltac:(lia)) as Hmod.
  pose proof (Nat.div_mod_eq k (rows M)) as Hdm.
  assert (k `div` rows M < cols M) as Hdiv
    by (apply Nat.Div0.div_lt_upper_bound; lia).
  specialize (Hidx (k `mod` rows M) (k `div` rows M) Hmod Hdiv).
  unfold index, sub2ind in Hidx. rewrite Hr in Hidx.
  replace (k `mod` rows M + k `div` rows M * rows M) with k in Hidx by lia.
  apply list_lookup_total_correct in Hx, Hy. congruence.
Qed.
End transposition.


(** ** Doubles *)

(** The facts about binary64 arithmetic used below follow from the
    specification of the primitive floats ([FloatAxioms]). *)













(** * The statements of the specification *)

(** ** Factorization *)

(** C6.  On a square matrix [factorize] completes, and the index vector it
    leaves has as many entries as the matrix has rows, holds no value twice,
    and holds exactly the values below the number of rows: it is a bijection
    on [{0, ..., n-1}]. *)
Theorem factorize_permutation `{Scalar R} (M : matrix R) :
  rows M = cols M →
  ∃ M', factorize M = Some M' ∧ rows M' = rows M ∧
    length (p M') = rows M' ∧ NoDup (p M') ∧ ∀ x, x ∈ p M' ↔ x < rows M'.
Proof.
  intros Hsq. eexists. split; [by apply factorize_square|].
  destruct (factor_loop_invariant M (rows M - 1)) as (Hr & _ & _ & _ & Hperm).
  simpl. rewrite Hr. split; [done|]. exact Hperm.
Qed.

Lemma factorize_permutation_witness :
  ∃ M', factorize A_swap = Some M' ∧ rows M' = rows A_swap ∧
    length (p M') = rows M' ∧ NoDup (p M') ∧ ∀ x, x ∈ p M' ↔ x < rows M'.
Proof. apply (factorize_permutation A_swap). reflexivity. Defined.




(** The elimination at the column [ii] of a run of [factorize], for any
    scalars, with the update written as line 113 computes it. *)
Lemma elimination_step `{Scalar R} (M : matrix R) (ii : nat) :
  storage_ok M → rows M = cols M → ii + 1 < rows M →
  let T := factor_loop M ii in
  let T' := factor_loop M (ii + 1) in
  let q := p T' in
  (∀ jj, ii < jj < rows M →
     index T' (q !!! jj) ii = rdiv (index T (q !!! jj) ii) (index T (q !!! ii) ii) ∧
     ∀ kk, ii < kk < cols M →
       index T' (q !!! jj) kk =
         radd (index T (q !!! jj) kk)
              (rmul (ropp (index T (q !!! ii) kk)) (index T' (q !!! jj) ii))) ∧
  (∀ jj kk, jj < rows M → kk < cols M → jj ≤ ii ∨ kk < ii →
     index T' (q !!! jj) kk = index T (q !!! jj) kk).
Proof.
  intros Hok Hsq Hii T T' q.
  destruct (factor_loop_invariant M ii) as (Hr & Hc & _ & _ & Hperm).
  pose proof (factor_loop_storage_ok M ii Hok) as HokS. fold T in Hr, Hc, Hperm, HokS.
  set (k := find_pivot T (rows M) ii).
  set (Ms := pivot_swap T ii k).
  destruct (find_pivot_range T (rows M) ii) as [Hle Hlt]. fold k in Hle, Hlt.
  destruct (pivot_swap_data T ii k) as (Hd' & Hr' & Hc' & _). fold Ms in Hd', Hr', Hc'.
  assert (T' = eliminate (rows M) (cols M) ii Ms) as HS'
    by (unfold T'; by rewrite factor_loop_succ).
  assert (q = p Ms) as Hq.
  { unfold q. rewrite HS'. by destruct (eliminate_frame (rows M) (cols M) ii Ms) as (_&_&->&_). }
  assert (storage_ok Ms) as HokMs by (unfold storage_ok in *; congruence).
  assert (valid_permutation (p Ms) (rows Ms)) as HpermMs.
  { rewrite Hr', Hr. apply (valid_permutation_perm (p T)); [|done].
    destruct Hperm as (Hl & _). apply pivot_swap_perm; lia. }
  assert (∀ jj j, jj < rows M → j < cols M →
    index T' (q !!! jj) j =
      if decide (ii < jj) then
        if decide (j = ii) then rdiv (index T (q !!! jj) ii) (index T (q !!! ii) ii)
        else if decide (ii < j) then
          radd (index T (q !!! jj) j)
               (rmul (ropp (index T (q !!! ii) j))
                     (rdiv (index T (q !!! jj) ii) (index T (q !!! ii) ii)))
        else index T (q !!! jj) j
      else index T (q !!! jj) j) as Hspec.
  { intros jj j Hjj Hj. rewrite HS', Hq.
    rewrite (eliminate_spec (rows M) (cols M) ii Ms) by (try done; congruence || lia).
    unfold Ms. by rewrite !index_pivot_swap. }
  split.
  - intros jj Hjj. split.
    + rewrite Hspec by lia. rewrite decide_True by lia. by rewrite decide_True.
    + intros kk Hkk. rewrite !Hspec by lia.
      rewrite !(decide_True (P := ii < jj)) by lia.
      rewrite (decide_False (P := kk = ii)) by lia.
      rewrite (decide_True (P := ii < kk)) by lia.
      by rewrite (decide_True (P := ii = ii)).
  - intros jj kk Hjj Hkk Hor. rewrite Hspec by done.
    repeat case_decide; try done; lia.
Qed.



Example elimination_on_A_swap :
  factor_loop A_swap 1 = Matrix [0.5; 2; 2.5; 1]%float 2 2 false [1; 0].
Proof. by vm_compute. Qed.

(** ** Solution *)

Section solving.
Context `{Scalar R}.
Implicit Types (M : matrix R) (b : list R).

Lemma factorize_sets_flag M M' : factorize M = Some M' → factorized M' = true.
Proof. intros [_ ->]%factorize_Some. done. Qed.

(** Lines 50-54 when the flag is set: the solver is left as it is. *)
Lemma solve_factorized M b :
  factorized M = true →
  solve M b = Some (M, backward_substitution M (forward_substitution M b)).
Proof. unfold solve. by intros ->. Qed.

(** Lines 50-54 when the flag is not set: [factorize] runs first. *)
Lemma solve_not_factorized M b :
  factorized M = false →
  solve M b =
    M' ← factorize M;
    Some (M', backward_substitution M' (forward_substitution M' b)).
Proof. unfold solve. by intros ->. Qed.

(** A call that returns leaves the flag set. *)
Lemma solve_Some M b M1 x :
  solve M b = Some (M1, x) →
  factorized M1 = true ∧
  x = backward_substitution M1 (forward_substitution M1 b) ∧
  (if factorized M then M1 = M else factorize M = Some M1).
Proof.
  unfold solve. destruct (factorized M) eqn:Hf; simpl.
  - intros [= <- <-]. done.
  - destruct (factorize M) as [M'|] eqn:HM'; simpl; [|done].
    intros [= <- <-]. split; [by eapply factorize_sets_flag|done].
Qed.

(** Every call after one that returned finds the flag set and leaves the
    solver as it found it. *)
Lemma solve_all_factorized M bs :
  factorized M = true →
  solve_all M bs =
    Some (M, map (λ b, backward_substitution M (forward_substitution M b)) bs).
Proof.
  intros Hf. induction bs as [|b bs IH]; simpl; [done|].
  rewrite solve_factorized by done. simpl. by rewrite IH.
Qed.

(** [solve] fails on the assertion of line 92 only. *)
Lemma solve_None M b : solve M b = None ↔ factorized M = false ∧ rows M ≠ cols M.
Proof.
  unfold solve, factorize, get_rows, get_cols.
  destruct (factorized M); simpl.
  - split; [done|]. by intros [? _].
  - case_decide; simpl; split; try done. by intros [_ ?].
Qed.
End solving.

(** C5.  On a factorized solver (square, with a valid index vector) and a
    right-hand side [b] of the dimension of the matrix, [solve] returns the
    solver unchanged and the vector [x] obtained from [b] by the forward
    sweep followed by the backward sweep, both writing into the storage of
    [b].  With [y] the storage after the forward sweep: for every logical row
    [ii], [y[p[ii]]] is [b[p[ii]]] minus the terms [L(p[ii], kk) * y[p[kk]]],
    [kk = 0, ..., ii - 1], subtracted one after the other; and [x[p[ii]]] is
    [y[p[ii]]] minus the terms [U(p[ii], kk) * x[p[kk]]],
    [kk = ii + 1, ..., n - 1], subtracted one after the other, divided by
    the diagonal entry [U(p[ii], ii)].  The entries of [L] and [U] are those
    of the storage of the solver, below and on or above the diagonal. *)
Theorem solve_substitution `{Scalar R} (M : matrix R) (b : list R) :
  factorized M = true → rows M = cols M →
  valid_permutation (p M) (rows M) → length b = rows M →
  let y := forward_substitution M b in
  let x := backward_substitution M y in
  solve M b = Some (M, x) ∧ length y = length b ∧ length x = length b ∧
  (∀ ii, ii < rows M →
     y !!! (p M !!! ii) =
       fold_left (λ f kk, rsub f (rmul (index M (p M !!! ii) kk) (y !!! (p M !!! kk))))
         (seq 0 ii) (b !!! (p M !!! ii))) ∧
  (∀ ii, ii < rows M →
     x !!! (p M !!! ii) =
       rdiv (fold_left
               (λ f kk, rsub f (rmul (index M (p M !!! ii) kk) (x !!! (p M !!! kk))))
               (seq (S ii) (rows M - S ii)) (y !!! (p M !!! ii)))
            (index M (p M !!! ii) ii)).
Proof.
  intros Hf Hsq Hperm Hlen y x.
  split; [by apply solve_factorized|].
  split; [unfold y; by rewrite length_forward_substitution|].
  split; [unfold x, y; by rewrite length_backward_substitution, length_forward_substitution|].
  split.
  - intros ii Hii.
    destruct (forward_substitution_spec M b Hperm ltac:(lia)) as [Hfw _].
    exact (Hfw ii Hii).
  - intros ii Hii.
    destruct (backward_substitution_spec M y Hperm Hsq) as [Hbw _].
    { unfold y. rewrite length_forward_substitution. lia. }
    rewrite Hsq. exact (Hbw ii Hii).
Qed.

Lemma solve_substitution_witness :
  let M := A_swap_factorized in
  let b := [5; 3]%float in
  let y := forward_substitution M b in
  let x := backward_substitution M y in
  solve M b = Some (M, x) ∧ length y = length b ∧ length x = length b ∧
  (∀ ii, ii < rows M →
     y !!! (p M !!! ii) =
       fold_left (λ f kk, rsub f (rmul (index M (p M !!! ii) kk) (y !!! (p M !!! kk))))
         (seq 0 ii) (b !!! (p M !!! ii))) ∧
  (∀ ii, ii < rows M →
     x !!! (p M !!! ii) =
       rdiv (fold_left
               (λ f kk, rsub f (rmul (index M (p M !!! ii) kk) (x !!! (p M !!! kk))))
               (seq (S ii) (rows M - S ii)) (y !!! (p M !!! ii)))
            (index M (p M !!! ii) ii)).
Proof.
  apply (solve_substitution A_swap_factorized [5; 3]%float);
    [reflexivity|reflexivity| |reflexivity].
  split; [reflexivity|]. split.
  - repeat constructor; rewrite ?elem_of_cons, ?elem_of_nil; simpl; lia.
  - intros v. simpl. rewrite !elem_of_cons, elem_of_nil. lia.
Defined.

(** The two sweeps on the factors of [[1 3] [2 1]] and the right-hand side
    [5 3]: the forward sweep leaves [5 - 0.5 * 3 = 3.5] and [3]; the backward
    sweep leaves [3.5 / 2.5] and [(3 - 1 * (3.5 / 2.5)) / 2]. *)
Example solve_substitution_values :
  forward_substitution A_swap_factorized [5; 3]%float = [3.5; 3]%float ∧
  backward_substitution A_swap_factorized [3.5; 3]%float
    = [3.5 / 2.5; (3 - 1 * (3.5 / 2.5)) / 2]%float.
Proof. split; by vm_compute. Qed.

(** C7.  The flag is not set in a new matrix; [factorize], when it
    completes, sets it; a call of [solve] that finds the flag unset runs
    [factorize] first; and once a call of [solve] has returned, the flag is
    set and every later call, for any right-hand sides, returns the very
    same solver (entries, index vector, flag and shape), having computed
    its result from that solver and its own right-hand side alone.  The
    right-hand side is a vector distinct from the solver. *)
Theorem factorization_runs_once `{Scalar R} :
  (∀ r c, factorized (new_matrix (R:=R) r c) = false) ∧
  (∀ M M', factorize M = Some M' → factorized M' = true) ∧
  (∀ M b, factorized M = false →
     solve M b =
       M' ← factorize M;
       Some (M', backward_substitution M' (forward_substitution M' b))) ∧
  (∀ M b M1 x, solve M b = Some (M1, x) →
     factorized M1 = true ∧
     (∀ b', solve M1 b' =
        Some (M1, backward_substitution M1 (forward_substitution M1 b'))) ∧
     (∀ bs, solve_all M1 bs =
        Some (M1, map (λ b', backward_substitution M1 (forward_substitution M1 b')) bs))).
Proof.
  split; [done|]. split; [apply @factorize_sets_flag|].
  split; [apply @solve_not_factorized|].
  intros M b M1 x (Hf & _ & _)%solve_Some. split; [done|]. split.
  - intros b'. by apply solve_factorized.
  - intros bs. by apply solve_all_factorized.
Qed.

Lemma factorization_runs_once_witness :
  factorized A_swap_factorized = true ∧
  (∀ b', solve A_swap_factorized b' =
     Some (A_swap_factorized,
           backward_substitution A_swap_factorized
             (forward_substitution A_swap_factorized b'))) ∧
  (∀ bs, solve_all A_swap_factorized bs =
     Some (A_swap_factorized,
           map (λ b', backward_substitution A_swap_factorized
                        (forward_substitution A_swap_factorized b')) bs)).
Proof.
  eapply (proj2 (proj2 (proj2 factorization_runs_once)) A_swap [5; 3]%float).
  vm_compute. reflexivity.
Defined.

(** Once a call has returned, a call on the solver it left and a call on
    the solver it started from give the same result. *)
Lemma solve_again `{Scalar R} (M : matrix R) (b : list R) M1 x b' :
  solve M b = Some (M1, x) → solve M1 b' = solve M b'.
Proof.
  intros HS. pose proof HS as (Hf1 & _ & HM)%solve_Some.
  rewrite (solve_factorized M1) by done.
  destruct (factorized M) eqn:Hf.
  - subst M1. by rewrite solve_factorized.
  - rewrite solve_not_factorized by done. by rewrite HM.
Qed.

(** C8.  Solving for the right-hand sides [bs] one after the other on one
    solver gives exactly the results of solving each of them on a solver of
    its own, built from the same matrix: the same vectors, entry for entry,
    or a failure in both cases.  In particular, after a first call for [b1]
    has returned, the call for [b2] on the same solver returns what a
    call for [b2] on the solver as it was before any call returns, whether
    or not [b2] has the content of [b1]. *)
Theorem cached_factorization_same_results `{Scalar R} (M : matrix R) :
  (∀ bs, snd <$> solve_all M bs = solve_each M bs) ∧
  (∀ b1 b2 M1 x1, solve M b1 = Some (M1, x1) → solve M1 b2 = solve M b2).
Proof.
  split; [|intros b1 b2 M1 x1; apply solve_again].
  intros bs. unfold solve_each. destruct bs as [|b bs]; [done|]. simpl.
  destruct (solve M b) as [[M1 x]|] eqn:HS; simpl; [|done].
  pose proof HS as (Hf1 & _ & _)%solve_Some.
  rewrite solve_all_factorized by done. simpl.
  assert (mapM (λ b0, snd <$> solve M b0) bs =
          Some (map (λ b0, backward_substitution M1 (forward_substitution M1 b0)) bs))
    as ->; [|done].
  induction bs as [|b' bs IH]; simpl; [done|].
  rewrite <- (solve_again M b M1 x b') by done.
  rewrite solve_factorized by done. simpl. by rewrite IH.
Qed.

Lemma cached_factorization_same_results_witness :
  snd <$> solve_all A_swap [[5; 3]; [1; 2]; [5; 3]]%float
    = solve_each A_swap [[5; 3]; [1; 2]; [5; 3]]%float.
Proof. apply (proj1 (cached_factorization_same_results A_swap)). Defined.

(** ** Transposition *)

(** C10.  [transpose] returns a matrix with the columns of [M] as rows:
    its shape is [cols M] by [rows M] and its entry [(i, j)] is the entry
    [(j, i)] of [M].  When the storage of [M] holds its [rows M * cols M]
    entries, transposing twice gives back the shape and the storage of [M],
    hence all its entries.  (The result is a new matrix: its flag is unset
    and its index vector empty.) *)
Theorem transpose_involutive `{Scalar R} (M : matrix R) :
  rows (transpose M) = cols M ∧ cols (transpose M) = rows M ∧
  (∀ i j, i < cols M → j < rows M → index (transpose M) i j = index M j i) ∧
  (storage_ok M →
     rows (transpose (transpose M)) = rows M ∧
     cols (transpose (transpose M)) = cols M ∧
     data (transpose (transpose M)) = data M).
Proof.
  destruct (transpose_loops M) as ((Hr & Hc & _) & Hok & Hidx).
  simpl in Hr, Hc. split; [done|]. split; [done|]. split; [done|].
  intros HokM.
  destruct (transpose_loops (transpose M)) as ((Hr' & Hc' & _) & Hok' & Hidx').
  simpl in Hr', Hc'. rewrite Hr', Hc', Hr, Hc. split; [done|]. split; [done|].
  apply data_ext; try done; try congruence.
  intros i j Hi Hj. rewrite Hidx' by congruence. apply Hidx; done.
Qed.

Lemma transpose_involutive_witness :
  let M := Matrix [1; 2; 3; 4; 5; 6]%float 2 3 false [] in
  rows (transpose (transpose M)) = rows M ∧
  cols (transpose (transpose M)) = cols M ∧
  data (transpose (transpose M)) = data M.
Proof.
  apply (proj2 (proj2 (proj2
    (transpose_involutive (Matrix [1; 2; 3; 4; 5; 6]%float 2 3 false []))))).
  reflexivity.
Defined.

Example transpose_2_by_3 :
  transpose (Matrix [1; 2; 3; 4; 5; 6]%float 2 3 false [])
    = Matrix [1; 3; 5; 2; 4; 6]%float 3 2 false [].
Proof. by vm_compute. Qed.

(** ** What [solve] returns *)

(** C1.  The system [[1 3] [2 1]] x = [5 3] has the solution [0.8 1.4].
    The matrix is invertible and needs one row interchange.  [solve]
    returns, in the storage of the right-hand side, [1.4 0.8]: the
    unknowns are left at the positions [p[0]], [p[1]] instead of [0], [1].
    The product of the matrix with the returned vector is not the
    right-hand side within the tolerance [1e-9]; with the two entries
    exchanged it is. *)
Theorem solve_misplaces_solution :
  let x0 := ((3 - 1 * (3.5 / 2.5)) / 2)%float in
  let x1 := (3.5 / 2.5)%float in
  solve A_swap [5; 3]%float = Some (A_swap_factorized, [x1; x0]) ∧
  all_close tolerance (mat_vec A_swap [x1; x0]) [5; 3]%float = false ∧
  all_close tolerance (mat_vec A_swap [x0; x1]) [5; 3]%float = true ∧
  close_to tolerance x0 (8 / 10)%float = true ∧
  close_to tolerance x1 (14 / 10)%float = true.
Proof. by vm_compute. Qed.

(** On the same matrix without the need of an interchange, [[2 1] [1 3]]
    with right-hand side [3 5], the result is the solution [0.8 1.4]. *)
Example solve_small_case :
  ∃ M' x, solve A_small [3; 5]%float = Some (M', x) ∧ p M' = [0; 1] ∧
    all_close tolerance (mat_vec A_small x) [3; 5]%float = true ∧
    all_close tolerance x [8 / 10; 14 / 10]%float = true.
Proof. do 2 eexists. by vm_compute. Qed.

(** The scan compares signed values: in the first column of the rotation
    [[0 1] [-1 0]] it keeps the pivot [0] and ignores [-1]; the division by
    that pivot ends in NaN although the matrix is invertible. *)
Example solve_rotation :
  solve A_rotation [1; 1]%float
    = Some (Matrix [0; neg_infinity; 1; infinity]%float 2 2 true [0; 1], [nan; nan]).
Proof. by vm_compute. Qed.

(** C2, as stated, fails: on the singular matrix [[1 2] [2 4]] with the
    right-hand side [3 5], [solve] returns normally and the vector it
    returns holds the two infinities. *)
Lemma solve_singular_returns :
  solve A_singular [3; 5]%float
    = Some (Matrix [0.5; 2; 0; 4]%float 2 2 true [1; 0], [infinity; neg_infinity]).
Proof. by vm_compute. Qed.

(** C2, amended.  [solve] reports no singularity: on every square matrix,
    whatever its pivots and diagonal entries, and for every right-hand side
    of its dimension, it returns, with a vector of the same length.  On the
    singular matrix [[1 2] [2 4]] the factorization leaves the diagonal
    entry [0] in the last row, and the division by it in the backward sweep
    puts infinities or NaN in the vector returned. *)
Theorem solve_reports_no_singularity :
  (∀ `{Scalar R} (M : matrix R) (b : list R),
     rows M = cols M → length b = rows M →
     ∃ M' x, solve M b = Some (M', x) ∧ length x = length b) ∧
  (∃ M', factorize A_singular = Some M' ∧ index M' (p M' !!! 1) 1 = 0%float ∧
     solve A_singular [3; 5]%float = Some (M', [infinity; neg_infinity]) ∧
     solve A_singular [1; 2]%float = Some (M', [nan; nan])).
Proof.
  split.
  - intros R ? M b Hsq Hlen.
    destruct (solve M b) as [[M' x]|] eqn:HS.
    + exists M', x. split; [done|]. apply solve_Some in HS as (_ & -> & _).
      by rewrite length_backward_substitution, length_forward_substitution.
    + apply solve_None in HS as [_ Hne]. done.
  - eexists. by vm_compute.
Qed.

Lemma solve_reports_no_singularity_witness :
  ∃ M' x, solve A_singular [3; 5]%float = Some (M', x) ∧
    length x = length [3; 5]%float.
Proof.
  apply (proj1 solve_reports_no_singularity float _ A_singular [3; 5]%float);
    reflexivity.
Defined.

(** C9, as stated, fails: for the identity of dimension 2 and a right-hand
    side of three entries the lengths differ, and [solve] returns normally,
    having factorized the matrix and swept the first two entries. *)
Lemma solve_accepts_longer_rhs :
  length [1; 2; 3]%float ≠ rows A_id ∧
  solve A_id [1; 2; 3]%float
    = Some (set_factorized (set_p A_id [0; 1]) true, [1; 2; 3]%float).
Proof. split; [by vm_compute|by vm_compute]. Qed.

(** C9, amended.  [solve] does not test the length of the right-hand side
    and reports no failure on its account.  On a square solver not yet
    factorized and a right-hand side [b] longer than the dimension [n] (or
    of length [n]), the call returns: the solver is the one [factorize]
    leaves, with its flag set and a valid index vector, and the vector
    returned is [b] after the two sweeps.  It has the length of [b]; its
    entries [p[ii]], [ii < n], are those of the forward sweep (the terms
    [L(p[ii], kk) * y[p[kk]]], [kk < ii], subtracted from [b[p[ii]]]) followed
    by the backward sweep (the terms [U(p[ii], kk) * x[p[kk]]], [kk > ii],
    subtracted from [y[p[ii]]], and the division by [U(p[ii], ii)]); its
    entries from position [n] on are those of [b]. *)
Theorem solve_rhs_not_checked `{Scalar R} (M : matrix R) (b : list R) :
  factorized M = false → rows M = cols M → rows M ≤ length b →
  ∃ F, factorize M = Some F ∧ factorized F = true ∧
    valid_permutation (p F) (rows M) ∧
    let y := forward_substitution F b in
    let x := backward_substitution F y in
    solve M b = Some (F, x) ∧ length x = length b ∧
    (∀ ii, ii < rows M →
       y !!! (p F !!! ii) =
         fold_left (λ f kk, rsub f (rmul (index F (p F !!! ii) kk) (y !!! (p F !!! kk))))
           (seq 0 ii) (b !!! (p F !!! ii))) ∧
    (∀ ii, ii < rows M →
       x !!! (p F !!! ii) =
         rdiv (fold_left
                 (λ f kk, rsub f (rmul (index F (p F !!! ii) kk) (x !!! (p F !!! kk))))
                 (seq (S ii) (rows M - S ii)) (y !!! (p F !!! ii)))
              (index F (p F !!! ii) ii)) ∧
    (∀ i, rows M ≤ i → y !!! i = b !!! i ∧ x !!! i = b !!! i).
Proof.
  intros Hf Hsq Hlen.
  destruct (factor_loop_invariant M (rows M - 1)) as (Hr & Hc & _ & _ & Hperm).
  set (F := set_factorized (factor_loop M (rows M - 1)) true).
  assert (factorize M = Some F) as HF by (by rewrite factorize_square).
  assert (rows F = rows M) as Hr' by done.
  assert (cols F = cols M) as Hc' by done.
  assert (valid_permutation (p F) (rows F)) as Hperm' by (by rewrite Hr').
  exists F. split; [done|]. split; [done|]. split; [by rewrite <- Hr'|].
  intros y x.
  destruct (forward_substitution_spec F b Hperm' ltac:(lia)) as [Hfw Hfw'].
  destruct (backward_substitution_spec F y Hperm') as [Hbw Hbw'];
    [congruence|unfold y; rewrite length_forward_substitution; lia|].
  split; [by rewrite solve_not_factorized, HF|].
  split; [unfold x, y; by rewrite length_backward_substitution, length_forward_substitution|].
  split; [intros ii Hii; apply (Hfw ii); lia|].
  split.
  - intros ii Hii. rewrite <- Hr', Hr', Hsq, <- Hc'. apply (Hbw ii). lia.
  - intros i Hi. split; [apply Hfw'; lia|].
    unfold x. rewrite Hbw' by lia. apply Hfw'. lia.
Qed.

Lemma solve_rhs_not_checked_witness :
  ∃ F, factorize A_swap = Some F ∧ factorized F = true ∧
    valid_permutation (p F) (rows A_swap) ∧
    let b := [5; 3; 9]%float in
    let y := forward_substitution F b in
    let x := backward_substitution F y in
    solve A_swap b = Some (F, x) ∧ length x = length b ∧
    (∀ ii, ii < rows A_swap →
       y !!! (p F !!! ii) =
         fold_left (λ f kk, rsub f (rmul (index F (p F !!! ii) kk) (y !!! (p F !!! kk))))
           (seq 0 ii) (b !!! (p F !!! ii))) ∧
    (∀ ii, ii < rows A_swap →
       x !!! (p F !!! ii) =
         rdiv (fold_left
                 (λ f kk, rsub f (rmul (index F (p F !!! ii) kk) (x !!! (p F !!! kk))))
                 (seq (S ii) (rows A_swap - S ii)) (y !!! (p F !!! ii)))
              (index F (p F !!! ii) ii)) ∧
    (∀ i, rows A_swap ≤ i → y !!! i = b !!! i ∧ x !!! i = b !!! i).
Proof.
  apply (solve_rhs_not_checked A_swap [5; 3; 9]%float); [reflexivity|reflexivity|].
  simpl. lia.
Defined.

(** The same call, evaluated: the first two entries are swept as for the
    right-hand side [5 3], the third is left alone. *)
Example solve_longer_rhs_values :
  solve A_swap [5; 3; 9]%float
    = Some (A_swap_factorized, [3.5 / 2.5; (3 - 1 * (3.5 / 2.5)) / 2; 9]%float).
Proof. by vm_compute. Qed.

(** * Further properties of the code *)

(** ** What the factorization loop leaves alone *)

Section frozen.
Context `{Scalar R}.
Implicit Types (M T : matrix R).

(** The last column has no row below the diagonal: the body of the loop
    does nothing there. *)
Lemma factor_step_last m n T ii : m ≤ ii + 1 → factor_step m n T ii = T.
Proof.
  intros Hm. unfold factor_step, find_pivot, pivot_scan, eliminate.
  replace (m - S ii) with 0 by lia. simpl.
  unfold pivot_swap. by rewrite decide_False by (intros Hne; by apply Hne).
Qed.

(** Lines 104-105 leave the positions other than [ii] and [imaxpivot]. *)
Lemma pivot_swap_lookup_other T ii k j :
  ii < length (p T) → k < length (p T) → j ≠ ii → j ≠ k →
  p (pivot_swap T ii k) !!! j = p T !!! j.
Proof.
  intros Hii Hk Hj1 Hj2. rewrite pivot_swap_p. case_decide; [|done].
  rewrite swap_p_lookup by done. by rewrite !decide_False.
Qed.

(** One iteration leaves the positions of [p] before [ii]. *)
Lemma factor_loop_succ_p M ii j :
  j < ii → p (factor_loop M (ii + 1)) !!! j = p (factor_loop M ii) !!! j.
Proof.
  intros Hj. rewrite factor_loop_succ, factor_step_p.
  destruct (factor_loop_invariant M ii) as (_ & _ & _ & _ & Hl & _).
  destruct (find_pivot_range (factor_loop M ii) (rows M) ii) as [Hle [Hlt| ->]].
  - apply pivot_swap_lookup_other; lia.
  - unfold pivot_swap. by rewrite decide_False by (intros Hne; by apply Hne).
Qed.

Lemma factor_loop_p_frozen M k k' j :
  j < k → k ≤ k' → p (factor_loop M k') !!! j = p (factor_loop M k) !!! j.
Proof.
  intros Hj Hk. induction Hk as [|k' Hk IH]; [done|].
  replace (S k') with (k' + 1) by lia. rewrite factor_loop_succ_p by lia. done.
Qed.

(** One iteration leaves the pivot rows found so far, the new one included,
    and the columns before [ii] of every row. *)
Lemma factor_loop_succ_index M ii j c :
  storage_ok M → rows M = cols M → j < rows M → c < cols M →
  j ≤ ii ∨ c < ii →
  index (factor_loop M (ii + 1)) (p (factor_loop M (ii + 1)) !!! j) c
    = index (factor_loop M ii) (p (factor_loop M (ii + 1)) !!! j) c.
Proof.
  intros Hok Hsq Hj Hc Hor.
  destruct (decide (ii + 1 < rows M)) as [Hii|Hii].
  - by apply (proj2 (elimination_step M ii Hok Hsq Hii)).
  - rewrite factor_loop_succ. by rewrite factor_step_last by lia.
Qed.

Lemma factor_loop_rows_frozen M k k' j c :
  storage_ok M → rows M = cols M → j < k → k ≤ k' → j < rows M → c < cols M →
  index (factor_loop M k') (p (factor_loop M k') !!! j) c
    = index (factor_loop M k) (p (factor_loop M k) !!! j) c.
Proof.
  intros Hok Hsq Hj Hk Hjn Hc. induction Hk as [|k' Hk IH]; [done|].
  replace (S k') with (k' + 1) by lia.
  rewrite factor_loop_succ_index by (try done; lia).
  rewrite factor_loop_succ_p by lia. done.
Qed.

Lemma factor_loop_columns_frozen M k k' r c :
  storage_ok M → rows M = cols M → c < k → k ≤ k' → r < rows M → c < cols M →
  index (factor_loop M k') r c = index (factor_loop M k) r c.
Proof.
  intros Hok Hsq Hc Hk Hr Hcn. induction Hk as [|k' Hk IH]; [done|].
  replace (S k') with (k' + 1) by lia. rewrite <- IH.
  destruct (factor_loop_invariant M (k' + 1)) as (_ & _ & _ & _ & Hperm).
  destruct (valid_permutation_surj _ _ r Hperm Hr) as (j & Hjn & <-).
  apply factor_loop_succ_index; try done; lia.
Qed.
End frozen.

(** X1.  In a run of [factorize] on a square matrix, once the column [k] is
    reached the work on the columns before it is final: whatever the number
    [k'] of columns done later, the first [k] positions of the index vector,
    the [k] pivot rows they name and the first [k] columns of every row are
    what they were when the column [k] was reached. *)
Theorem factor_loop_frozen `{Scalar R} (M : matrix R) (k k' : nat) :
  storage_ok M → rows M = cols M → k ≤ k' →
  (∀ j, j < k → p (factor_loop M k') !!! j = p (factor_loop M k) !!! j) ∧
  (∀ j c, j < k → j < rows M → c < cols M →
     index (factor_loop M k') (p (factor_loop M k) !!! j) c
       = index (factor_loop M k) (p (factor_loop M k) !!! j) c) ∧
  (∀ r c, r < rows M → c < k → c < cols M →
     index (factor_loop M k') r c = index (factor_loop M k) r c).
Proof.
  intros Hok Hsq Hk. split; [|split].
  - intros j Hj. by apply factor_loop_p_frozen.
  - intros j c Hj Hjn Hc. pose proof (factor_loop_p_frozen M k k' j Hj Hk) as Hp.
    rewrite <- Hp at 1. by apply factor_loop_rows_frozen.
  - intros r c Hr Hc Hcn. by apply factor_loop_columns_frozen.
Qed.

Lemma factor_loop_frozen_witness :
  (∀ j, j < 1 → p (factor_loop A_three 2) !!! j = p (factor_loop A_three 1) !!! j) ∧
  (∀ j c, j < 1 → j < rows A_three → c < cols A_three →
     index (factor_loop A_three 2) (p (factor_loop A_three 1) !!! j) c
       = index (factor_loop A_three 1) (p (factor_loop A_three 1) !!! j) c) ∧
  (∀ r c, r < rows A_three → c < 1 → c < cols A_three →
     index (factor_loop A_three 2) r c = index (factor_loop A_three 1) r c).
Proof. apply (factor_loop_frozen A_three 1 2); [reflexivity|reflexivity|lia]. Defined.

Example factor_loop_A_three :
  factor_loop A_three 1
    = Matrix [0.25; 0.5; 8; -0.75; -0.5; 7; -1.25; -1.5; 9]%float 3 3 false [2; 1; 0].
Proof. by vm_compute. Qed.

Section edges.
Context `{Scalar R}.
Implicit Types (M : matrix R) (b : list R).

Lemma solve_empty M b :
  factorized M = false → rows M = 0 → cols M = 0 →
  solve M b = Some (set_factorized (set_p M []) true, b).
Proof.
  intros Hf Hr Hc. rewrite solve_not_factorized by done.
  rewrite factorize_square by congruence. rewrite Hr. simpl.
  unfold factor_loop. simpl. rewrite init_p_spec, Hr. simpl.
  unfold backward_substitution, forward_substitution, get_rows. simpl. by rewrite Hr.
Qed.

Lemma solve_one M b :
  factorized M = false → rows M = 1 → cols M = 1 →
  solve M b = Some (set_factorized (set_p M [0]) true,
                    <[0 := rdiv (b !!! 0) (index M 0 0)]> b).
Proof.
  intros Hf Hr Hc. rewrite solve_not_factorized by done.
  rewrite factorize_square by congruence. rewrite Hr. simpl.
  unfold factor_loop. simpl. rewrite init_p_spec, Hr. simpl. f_equal. f_equal.
  unfold backward_substitution, forward_substitution, get_rows. simpl. rewrite Hr. simpl.
  unfold backward_row, forward_row, subtract_terms, get_cols. simpl. rewrite Hc. simpl.
  rewrite list_insert_insert_eq. f_equal. f_equal.
  destruct b; done.
Qed.
End edges.

(** X6.  The systems of dimension 0 and 1, with any scalars: the loop of
    line 93 does not run, so [solve] leaves the storage of the matrix as it
    is and sets [p] to the identity.  With no unknown the right-hand side
    comes back unchanged; with one unknown its entry 0 is divided by the
    only entry of the matrix, zero or not, and nothing else is written. *)
Theorem solve_small_systems `{Scalar R} (M : matrix R) (b : list R) :
  factorized M = false → rows M = cols M → rows M ≤ 1 →
  solve M b =
    Some (set_factorized (set_p M (seq 0 (rows M))) true,
          if decide (rows M = 0) then b
          else <[0 := rdiv (b !!! 0) (index M 0 0)]> b).
Proof.
  intros Hf Hsq Hle. case_decide as Hz.
  - rewrite Hz. apply solve_empty; [done|done|lia].
  - assert (rows M = 1) as Hr by lia. rewrite Hr. apply solve_one; [done|done|lia].
Qed.

Lemma solve_small_systems_witness :
  solve A_one [2; 5]%float
  = Some (Matrix [4]%float 1 1 true [0], [0.5; 5]%float).
Proof.
  rewrite (solve_small_systems A_one [2; 5]%float);
    [by vm_compute|reflexivity|reflexivity|simpl; lia].
Defined.

(** X7.  Whatever the scalars, the transpose of a stored [r] by [c] matrix
    is a stored [c] by [r] matrix whose entry [(i, j)] is the entry [(j, i)]
    of the matrix. *)
Theorem transpose_entries `{Scalar R} (M : matrix R) :
  storage_ok M →
  rows (transpose M) = cols M ∧ cols (transpose M) = rows M ∧
  storage_ok (transpose M) ∧
  ∀ i j, i < cols M → j < rows M → index (transpose M) i j = index M j i.
Proof.
  intros _. destruct (transpose_loops M) as ((Hr & Hc & _) & Hok & Hidx).
  simpl in Hr, Hc. done.
Qed.

Lemma transpose_entries_witness :
  rows (transpose Q_wide) = cols Q_wide ∧ cols (transpose Q_wide) = rows Q_wide ∧
  storage_ok (transpose Q_wide) ∧
  ∀ i j, i < cols Q_wide → j < rows Q_wide →
    index (transpose Q_wide) i j = index Q_wide j i.
Proof. apply (transpose_entries Q_wide). reflexivity. Defined.

(** X8.  Whatever the scalars, transposing a stored row or a stored column
    moves nothing: the storage of the transpose is the storage of the
    matrix. *)
Theorem transpose_vector `{Scalar R} (M : matrix R) :
  storage_ok M → rows M = 1 ∨ cols M = 1 → data (transpose M) = data M.
Proof.
  intros Hok Hv.
  destruct (transpose_loops M) as ((Hr & Hc & _) & HokT & Hidx). simpl in Hr, Hc.
  unfold storage_ok in *.
  apply (list_eq_same_length _ _ (rows M * cols M)); [done|rewrite HokT, Hr, Hc; lia|].
  intros k x y Hk Hx Hy. apply list_lookup_total_correct in Hx, Hy. subst x y.
  destruct Hv as [H1|H1].
  - specialize (Hidx k 0 ltac:(lia) ltac:(lia)). unfold index, sub2ind in Hidx.
    rewrite Hr, H1 in Hidx.
    replace (k + 0 * cols M) with k in Hidx by lia.
    replace (0 + k * 1) with k in Hidx by lia. done.
  - specialize (Hidx 0 k ltac:(lia) ltac:(lia)). unfold index, sub2ind in Hidx.
    rewrite Hr, H1 in Hidx.
    replace (0 + k * 1) with k in Hidx by lia.
    replace (k + 0 * rows M) with k in Hidx by lia. done.
Qed.

Lemma transpose_vector_witness : data (transpose Q_column) = data Q_column.
Proof. apply (transpose_vector Q_column); [reflexivity|by right]. Defined.
